(** * Bridge event listener (src/script.py): a shallow embedding

    The relayer watches [BridgeTransferInitiated] events on a source chain,
    deduplicates them by [transactionId] in an in-memory set and builds and
    signs a [releaseTokens] transaction for the destination chain.

    Modelling choices:
    - Python exceptions are the inductive [exc]; [KeyboardInterrupt] is the
      only [BaseException] that is not an [Exception].
    - The mutable attributes of the listener and of its handler
      ([last_processed_block], [processed_transactions]) live in a [World]
      record threaded through a state-and-exception monad [M]; a raised
      exception keeps the mutations performed before it, as in Python.
    - Every web3 call on the destination chain is recorded in [dest_calls]
      with whether it returned normally; every event-log query on the source
      chain is recorded in [src_queries]; log lines go to [logs].
    - The nodes are oracles: [DestChain] answers the destination-chain calls
      of one poll cycle ([None] = the call raised an [Exception]), [Tick]
      answers the source-chain calls of one poll cycle. *)

From Stdlib Require Import ZArith Lia Ascii.
From stdpp Require Import base gmap sets list strings.

Open Scope Z_scope.

Global Instance byte_eq_decision : EqDecision Byte.byte := Byte.byte_eq_dec.

(** ** Python exceptions *)

Inductive exc :=
| ExcRequestsConnectionError  (* requests.exceptions.ConnectionError *)
| ExcConnectionError          (* builtin ConnectionError (ChainConnector) *)
| ExcValueError
| ExcOther                    (* any other Exception subclass *)
| ExcKeyboardInterrupt.       (* BaseException, not an Exception *)

Global Instance exc_eq_dec : EqDecision exc.
Proof. solve_decision. Defined.

Definition is_exception (e : exc) : bool :=
  match e with ExcKeyboardInterrupt => false | _ => true end.

(** ** Data model *)

(** [bytes.hex()]: two lower-case hexadecimal digits per byte. *)
Definition hex_digit (n : N) : Ascii.ascii :=
  Ascii.ascii_of_N (if (n <? 10)%N then 48 + n else 87 + n)%N.

Definition hex_byte (b : Byte.byte) : string :=
  String (hex_digit (Byte.to_N b / 16)%N)
    (String (hex_digit (Byte.to_N b mod 16)%N) EmptyString).

Definition hex (bs : list Byte.byte) : string :=
  fold_right (fun b s => String.append (hex_byte b) s) EmptyString bs.

(** One decoded [BridgeTransferInitiated] log entry as web3 returns it:
    [event['args']] plus the position of the log. *)
Record BridgeEvent := mkBridgeEvent {
  ev_transactionId : list Byte.byte;   (* bytes32 *)
  ev_sender : string;
  ev_destinationChainId : Z;
  ev_token : string;
  ev_amount : Z;
  ev_blockNumber : Z;
  ev_logIndex : Z
}.

(** [BridgeConfig] (script.py, lines 60-69). *)
Record BridgeConfig := mkBridgeConfig {
  source_chain_rpc : string;
  destination_chain_rpc : string;
  source_bridge_address : string;
  destination_bridge_address : string;
  listener_private_key : string;
  start_block : Z;
  poll_interval_seconds : Z
}.

(** Arguments of [releaseTokens(sourceTransactionId, recipient, token, amount)]. *)
Record ReleaseCall := mkReleaseCall {
  rc_sourceTransactionId : list Byte.byte;
  rc_recipient : string;
  rc_token : string;
  rc_amount : Z
}.

(** [tx_payload] of [_simulate_release_tokens]. *)
Record TxPayload := mkTxPayload {
  p_from : string;
  p_nonce : Z;
  p_gas : Z;
  p_gasPrice : Z
}.

(** Result of [build_transaction]: the encoded call, the payload and what
    the node fills in (the chain id). *)
Record BuiltTx := mkBuiltTx {
  bt_call : ReleaseCall;
  bt_payload : TxPayload;
  bt_chainId : Z
}.

Record SignedTx := mkSignedTx {
  st_tx : BuiltTx;
  st_hash : list Byte.byte
}.

(** Destination-chain (web3) operations.  The last two are the calls that
    the source leaves commented out (lines 195-197). *)
Inductive dest_op :=
| OpFromKey
| OpGetTransactionCount (addr : string)
| OpGasPrice
| OpBuildTransaction (call : ReleaseCall) (payload : TxPayload)
| OpSignTransaction (tx : BuiltTx)
| OpSendRawTransaction (stx : SignedTx)
| OpWaitForTransactionReceipt (tx_hash : list Byte.byte).

Inductive log_entry :=
| LogSkipDuplicate (tx_id : string)            (* warning, line 135 *)
| LogProcessing (tx_id : string)               (* line 138 *)
| LogPreparing (amount : Z) (token recipient tx_id : string)  (* line 160 *)
| LogWouldSend                                 (* line 201 *)
| LogSignedTx (hash : string)                  (* line 202 *)
| LogBuildOrSignFailed (tx_id : string)        (* line 205 *)
| LogSuccess (tx_id : string)                  (* line 143 *)
| LogEventError (ev : BridgeEvent)             (* line 146 *)
| LogScanning (from_block to_block : Z)        (* line 245 *)
| LogFoundEvents (n : nat)                     (* line 255 *)
| LogNoEvents                                  (* line 259 *)
| LogRpcError                                  (* line 264 *)
| LogUnexpectedError                           (* line 266 *)
| LogConfigurationError                        (* line 309 *)
| LogCriticalInit.                             (* line 311 *)

(** ** State and the monad *)

Record World := mkWorld {
  last_processed_block : Z;
  processed_transactions : gset string;
  dest_calls : list (dest_op * bool);
  src_queries : list (Z * Z);
  logs : list log_entry
}.

Definition set_last_processed_block (n : Z) (w : World) : World :=
  mkWorld n (processed_transactions w) (dest_calls w) (src_queries w) (logs w).
Definition set_processed (p : gset string) (w : World) : World :=
  mkWorld (last_processed_block w) p (dest_calls w) (src_queries w) (logs w).
Definition add_dest_call (c : dest_op * bool) (w : World) : World :=
  mkWorld (last_processed_block w) (processed_transactions w)
    (dest_calls w ++ [c]) (src_queries w) (logs w).
Definition add_src_query (q : Z * Z) (w : World) : World :=
  mkWorld (last_processed_block w) (processed_transactions w)
    (dest_calls w) (src_queries w ++ [q]) (logs w).
Definition add_log (l : log_entry) (w : World) : World :=
  mkWorld (last_processed_block w) (processed_transactions w)
    (dest_calls w) (src_queries w) (logs w ++ [l]).

Definition M (A : Type) : Type := World -> (exc + A) * World.

Global Instance M_ret : MRet M := fun A a w => (inr a, w).
Global Instance M_bind : MBind M := fun A B f m w =>
  match m w with
  | (inl e, w') => (inl e, w')
  | (inr a, w') => f a w'
  end.

Definition raise {A} (e : exc) : M A := fun w => (inl e, w).

(** [try: m except BaseException as e: h e]; handlers re-raise what they do
    not catch. *)
Definition try_except {A} (m : M A) (h : exc -> M A) : M A := fun w =>
  match m w with
  | (inl e, w') => h e w'
  | (inr a, w') => (inr a, w')
  end.

Definition log (l : log_entry) : M unit := fun w => (inr tt, add_log l w).

Definition get_world : M World := fun w => (inr w, w).
Definition modify (f : World -> World) : M unit := fun w => (inr tt, f w).

(** A destination-chain call with the oracle's answer. *)
Definition dest_call {A} (op : dest_op) (r : option A) : M A := fun w =>
  match r with
  | Some a => (inr a, add_dest_call (op, true) w)
  | None => (inl ExcOther, add_dest_call (op, false) w)
  end.

(** A source-chain call with the oracle's answer. *)
Definition lift {A} (r : exc + A) : M A := fun w => (r, w).

(** ** BridgeEventHandler *)

(** Answers of the destination-chain node (and of the local account
    helpers of [web3.eth.account]) during one poll cycle; [None] means the
    call raised an [Exception]. *)
Record DestChain := mkDestChain {
  dc_from_key : string -> option string;              (* account.address *)
  dc_get_transaction_count : string -> option Z;
  dc_gas_price : option Z;
  dc_build_transaction : ReleaseCall -> TxPayload -> option Z;  (* chain id *)
  dc_sign_transaction : BuiltTx -> string -> option (list Byte.byte)  (* hash *)
}.

(** The [releaseTokens] call built from an event (lines 180-185). *)
Definition release_call (ev : BridgeEvent) : ReleaseCall :=
  mkReleaseCall (ev_transactionId ev) (ev_sender ev) (ev_token ev) (ev_amount ev).

(** [_simulate_release_tokens] (lines 148-207). *)
Definition _simulate_release_tokens (cfg : BridgeConfig) (dc : DestChain)
    (ev : BridgeEvent) : M unit :=
  let sender_address := ev_sender ev in
  let tx_id := ev_transactionId ev in
  log (LogPreparing (ev_amount ev) (ev_token ev) sender_address (hex tx_id)) ;;
  wallet_address ← dest_call OpFromKey (dc_from_key dc (listener_private_key cfg)) ;
  try_except (
    nonce ← dest_call (OpGetTransactionCount wallet_address)
              (dc_get_transaction_count dc wallet_address) ;
    gp ← dest_call OpGasPrice (dc_gas_price dc) ;
    let tx_payload := mkTxPayload wallet_address nonce 200000 gp in
    let call := release_call ev in
    cid ← dest_call (OpBuildTransaction call tx_payload)
            (dc_build_transaction dc call tx_payload) ;
    let release_tx := mkBuiltTx call tx_payload cid in
    h ← dest_call (OpSignTransaction release_tx)
          (dc_sign_transaction dc release_tx (listener_private_key cfg)) ;
    let signed_tx := mkSignedTx release_tx h in
    log LogWouldSend ;;
    log (LogSignedTx (hex (st_hash signed_tx))))
  (fun e => if is_exception e
            then log (LogBuildOrSignFailed (hex tx_id)) ;; raise e
            else raise e).

(** [process_event] (lines 124-146). *)
Definition process_event (cfg : BridgeConfig) (dc : DestChain)
    (ev : BridgeEvent) : M unit :=
  try_except (
    let tx_id := hex (ev_transactionId ev) in
    w ← get_world ;
    if decide (tx_id ∈ processed_transactions w) then
      log (LogSkipDuplicate tx_id)
    else
      log (LogProcessing tx_id) ;;
      _simulate_release_tokens cfg dc ev ;;
      w' ← get_world ;
      modify (set_processed ({[ tx_id ]} ∪ processed_transactions w')) ;;
      log (LogSuccess tx_id))
  (fun e => if is_exception e then log (LogEventError ev) else raise e).

(** The [for event in events] loop of [run] (lines 256-257). *)
Fixpoint process_events (cfg : BridgeConfig) (dc : DestChain)
    (evs : list BridgeEvent) : M unit :=
  match evs with
  | [] => mret tt
  | ev :: evs' => process_event cfg dc ev ;; process_events cfg dc evs'
  end.

(** ** BridgeEventListener.run *)

(** Answers of the nodes during one iteration of the [while True] loop. *)
Record Tick := mkTick {
  tk_block_number : exc + Z;                              (* source head *)
  tk_get_all_entries : Z -> Z -> exc + list BridgeEvent;   (* filter query *)
  tk_dest : DestChain;
  tk_sleep : exc + unit      (* [time.sleep] may be interrupted *)
}.

(** [if events: ... else: ...] (lines 254-259). *)
Definition dispatch_found (cfg : BridgeConfig) (dc : DestChain)
    (events : list BridgeEvent) : M unit :=
  match events with
  | [] => log LogNoEvents
  | _ :: _ => log (LogFoundEvents (length events)) ;;
              process_events cfg dc events
  end.

(** The body of one iteration (lines 239-268). *)
Definition run_cycle (cfg : BridgeConfig) (tk : Tick) : M unit :=
  try_except (
    latest_block ← lift (tk_block_number tk) ;
    w ← get_world ;
    if decide (latest_block > last_processed_block w) then
      let from_block := last_processed_block w + 1 in
      let to_block := latest_block in
      log (LogScanning from_block to_block) ;;
      modify (add_src_query (from_block, to_block)) ;;
      events ← lift (tk_get_all_entries tk from_block to_block) ;
      dispatch_found cfg (tk_dest tk) events ;;
      modify (set_last_processed_block to_block)
    else mret tt)
  (fun e => match e with
            | ExcRequestsConnectionError => log LogRpcError
            | _ => if is_exception e then log LogUnexpectedError else raise e
            end) ;;
  lift (tk_sleep tk).

(** [while True:] over a finite prefix of the ticks.  Returning normally
    means the loop is still running after these ticks. *)
Fixpoint run_loop (cfg : BridgeConfig) (ticks : list Tick) : M unit :=
  match ticks with
  | [] => mret tt
  | tk :: ticks' => run_cycle cfg tk ;; run_loop cfg ticks'
  end.

(** ** Configuration and start-up *)

(** Characters stripped by Python's [int(str)] (ASCII part of
    [str.isspace]). *)
Definition is_py_space (c : Ascii.ascii) : bool :=
  let n := Ascii.nat_of_ascii c in
  (Nat.eqb n 32 || ((9 <=? n)%nat && (n <=? 13)%nat)
   || ((28 <=? n)%nat && (n <=? 31)%nat))%bool.

Definition digit_value (c : Ascii.ascii) : option Z :=
  let n := Z.of_nat (Ascii.nat_of_ascii c) in
  if (48 <=? n) && (n <=? 57) then Some (n - 48) else None.

(** Digits with single underscores between them, as [int()] accepts. *)
Fixpoint parse_digits (l : list Ascii.ascii) (acc : Z) : option Z :=
  match l with
  | [] => Some acc
  | c :: r =>
      match digit_value c with
      | Some d => parse_digits r (acc * 10 + d)
      | None =>
          if Ascii.eqb c "_"%char then
            match r with
            | c' :: r' =>
                match digit_value c' with
                | Some d => parse_digits r' (acc * 10 + d)
                | None => None
                end
            | [] => None
            end
          else None
      end
  end.

Definition parse_unsigned (l : list Ascii.ascii) : option Z :=
  match l with
  | c :: r => match digit_value c with
              | Some d => parse_digits r d
              | None => None
              end
  | [] => None
  end.

Fixpoint drop_spaces (l : list Ascii.ascii) : list Ascii.ascii :=
  match l with
  | c :: r => if is_py_space c then drop_spaces r else l
  | [] => []
  end.

(** Number of decimal digits in a text, the quantity limited by
    [sys.get_int_max_str_digits()] (4300 by default). *)
Definition count_digits (l : list Ascii.ascii) : nat :=
  length (filter (fun c => is_Some (digit_value c)) l).

(** Python's [int(s)] for a decimal string; [None] is [ValueError].  Only
    ASCII text is modelled: the Unicode whitespace and the non-ASCII
    decimal digits that [int()] also accepts are outside this model. *)
Definition py_int (s : string) : option Z :=
  let l := rev (drop_spaces (rev (drop_spaces (String.list_ascii_of_string s)))) in
  if (4300 <? count_digits l)%nat then None else
  match l with
  | c :: r =>
      if Ascii.eqb c "-"%char then option_map Z.opp (parse_unsigned r)
      else if Ascii.eqb c "+"%char then parse_unsigned r
      else parse_unsigned l
  | [] => None
  end.

(** The process environment after [load_dotenv()]. *)
Definition Env := string -> option string.

(** [if not os.getenv(var)]: unset or empty. *)
Definition env_missing (env : Env) (var : string) : bool :=
  match env var with
  | None => true
  | Some s => String.eqb s ""
  end.

Definition required_vars : list string :=
  ["SOURCE_CHAIN_RPC"; "DESTINATION_CHAIN_RPC";
   "SOURCE_BRIDGE_ADDRESS"; "DESTINATION_BRIDGE_ADDRESS";
   "LISTENER_PRIVATE_KEY"].

(** [int(os.getenv(var, default))]. *)
Definition getenv_int (env : Env) (var : string) (default : Z) : exc + Z :=
  match env var with
  | None => inr default
  | Some s => match py_int s with Some n => inr n | None => inl ExcValueError end
  end.

(** [load_config_from_env] (lines 270-295). *)
Definition load_config_from_env (env : Env) : exc + BridgeConfig :=
  if existsb (env_missing env) required_vars then inl ExcValueError
  else
    let get v := default "" (env v) in
    match getenv_int env "START_BLOCK" 0 with
    | inl e => inl e
    | inr sb =>
        match getenv_int env "POLL_INTERVAL_SECONDS" 15 with
        | inl e => inl e
        | inr pi =>
            inr (mkBridgeConfig (get "SOURCE_CHAIN_RPC") (get "DESTINATION_CHAIN_RPC")
                   (get "SOURCE_BRIDGE_ADDRESS") (get "DESTINATION_BRIDGE_ADDRESS")
                   (get "LISTENER_PRIVATE_KEY") sb pi)
        end
    end.

(** Answers of the nodes and of web3's helpers during start-up. *)
Record Net := mkNet {
  net_is_connected : string -> bool;                 (* per RPC url *)
  net_chain_id : string -> exc + Z;
  net_to_checksum_address : string -> exc + string;  (* may raise ValueError *)
  net_block_number : exc + Z                         (* source head *)
}.

(** [ChainConnector.__init__] (lines 74-86). *)
Definition chain_connector (net : Net) (rpc_url : string) : M unit :=
  if net_is_connected net rpc_url then
    _ ← lift (net_chain_id net rpc_url) ; mret tt
  else raise ExcConnectionError.

(** [ChainConnector.get_contract]: only the address check can fail. *)
Definition get_contract (net : Net) (address : string) : M string :=
  lift (net_to_checksum_address net address).

(** [BridgeEventListener.__init__] (lines 214-229), including
    [BridgeEventHandler.__init__] (lines 108-122). *)
Definition listener_init (cfg : BridgeConfig) (net : Net) : M unit :=
  chain_connector net (source_chain_rpc cfg) ;;
  chain_connector net (destination_chain_rpc cfg) ;;
  _ ← get_contract net (destination_bridge_address cfg) ;
  modify (set_processed ∅) ;;
  _ ← get_contract net (source_bridge_address cfg) ;
  (* [config.start_block or web3.eth.block_number] *)
  b ← (if decide (start_block cfg = 0) then lift (net_block_number net)
       else mret (start_block cfg)) ;
  modify (set_last_processed_block b).

Definition initial_world : World := mkWorld 0 ∅ [] [] [].

(** How the process stands: exited with a status, killed by an uncaught
    [KeyboardInterrupt], or still inside [listener.run()] after the given
    ticks. *)
Inductive MainResult :=
| MainExited (code : Z) (w : World)
| MainInterrupted (w : World)
| MainInLoop (w : World).

(** The [except ValueError] / [except Exception] clauses of [__main__];
    after them the script ends normally, with status 0. *)
Definition main_handler (e : exc) (w : World) : MainResult :=
  match e with
  | ExcValueError => MainExited 0 (add_log LogConfigurationError w)
  | _ => if is_exception e then MainExited 0 (add_log LogCriticalInit w)
         else MainInterrupted w
  end.

(** The start-up part of the [try] block of [__main__] (lines 303-306). *)
Definition startup (env : Env) (net : Net) : M BridgeConfig :=
  cfg ← lift (load_config_from_env env) ;
  listener_init cfg net ;;
  mret cfg.

(** [if __name__ == "__main__":] (lines 297-311); [listener.run()] is
    [run_loop] over the given ticks. *)
Definition main (env : Env) (net : Net) (ticks : list Tick) : MainResult :=
  match startup env net initial_world with
  | (inl e, w) => main_handler e w
  | (inr cfg, w) =>
      match run_loop cfg ticks w with
      | (inl e, w') => main_handler e w'
      | (inr _, w') => MainInLoop w'
      end
  end.

(** ** Concrete inputs *)

Definition cfg0 : BridgeConfig :=
  mkBridgeConfig "http://src" "http://dst" "0xSrcBridge" "0xDstBridge" "0xKey" 100 1.

Definition sample_event (tid : list Byte.byte) (blk : Z) : BridgeEvent :=
  mkBridgeEvent tid "0xSender" 1 "0xToken" 50 blk 0.

Definition dc_ok : DestChain :=
  mkDestChain (fun _ => Some "0xWallet") (fun _ => Some 7) (Some 1)
    (fun _ _ => Some 5) (fun _ _ => Some [Byte.x01]).

(** A node whose [build_transaction] fails for one transaction id. *)
Definition dc_reject (bad : list Byte.byte) : DestChain :=
  mkDestChain (fun _ => Some "0xWallet") (fun _ => Some 7) (Some 1)
    (fun c _ => if decide (rc_sourceTransactionId c = bad) then None else Some 5)
    (fun _ _ => Some [Byte.x01]).

Definition tick_with (head : Z) (evs : list BridgeEvent) (dc : DestChain) : Tick :=
  mkTick (inr head) (fun _ _ => inr evs) dc (inr tt).

Definition world_at (last : Z) : World := mkWorld last ∅ [] [] [].

(** All five required variables set. *)
Definition env_full : Env := fun v =>
  if decide (v = "SOURCE_CHAIN_RPC") then Some "http://src"
  else if decide (v = "DESTINATION_CHAIN_RPC") then Some "http://dst"
  else if decide (v = "SOURCE_BRIDGE_ADDRESS") then Some "0xSrcBridge"
  else if decide (v = "DESTINATION_BRIDGE_ADDRESS") then Some "0xDstBridge"
  else if decide (v = "LISTENER_PRIVATE_KEY") then Some "0xKey"
  else if decide (v = "START_BLOCK") then Some "100"
  else if decide (v = "POLL_INTERVAL_SECONDS") then Some "1"
  else None.

(** [LISTENER_PRIVATE_KEY] set to the empty string. *)
Definition env_empty_key : Env := fun v =>
  if decide (v = "LISTENER_PRIVATE_KEY") then Some "" else env_full v.

Definition net_ok : Net :=
  mkNet (fun _ => true) (fun _ => inr 1) (fun a => inr a) (inr 100).


(** ** Observations on the recorded effects *)

(** Release transactions successfully signed for a transaction id: the
    destination actions the relayer has constructed for it. *)
Definition is_release_for (tid : list Byte.byte) (c : dest_op * bool) : bool :=
  match c with
  | (OpSignTransaction tx, true) =>
      bool_decide (rc_sourceTransactionId (bt_call tx) = tid)
  | _ => false
  end.

Definition release_actions (tid : list Byte.byte) (calls : list (dest_op * bool))
    : list (dest_op * bool) :=
  filter (fun c => is_release_for tid c = true) calls.

(** The same count, keyed by the hex string the handler stores. *)
Definition is_release_hex (h : string) (c : dest_op * bool) : bool :=
  match c with
  | (OpSignTransaction tx, true) =>
      bool_decide (hex (rc_sourceTransactionId (bt_call tx)) = h)
  | _ => false
  end.

Definition relayed_count (h : string) (calls : list (dest_op * bool)) : nat :=
  length (filter (fun c => is_release_hex h c = true) calls).

Definition is_broadcast (c : dest_op * bool) : bool :=
  match c.1 with
  | OpSendRawTransaction _ | OpWaitForTransactionReceipt _ => true
  | _ => false
  end.

Definition main_world (r : MainResult) : World :=
  match r with MainExited _ w | MainInterrupted w | MainInLoop w => w end.

Definition main_exited_with (code : Z) (r : MainResult) : bool :=
  match r with MainExited c _ => bool_decide (c = code) | _ => false end.


(** Whether every destination call of one dispatch returns normally. *)
Definition dest_succeeds (cfg : BridgeConfig) (dc : DestChain) (ev : BridgeEvent) : bool :=
  match dc_from_key dc (listener_private_key cfg) with
  | None => false
  | Some a =>
      match dc_get_transaction_count dc a, dc_gas_price dc with
      | Some n, Some gp =>
          let pl := mkTxPayload a n 200000 gp in
          match dc_build_transaction dc (release_call ev) pl with
          | Some cid =>
              if dc_sign_transaction dc (mkBuiltTx (release_call ev) pl cid)
                   (listener_private_key cfg) then true else false
          | None => false
          end
      | _, _ => false
      end
  end.

(** Each transaction id has as many constructed release actions as it has
    entries in [processed_transactions] (zero or one). *)
Definition dedup_inv (w : World) : Prop :=
  forall h, relayed_count h (dest_calls w) =
            if bool_decide (h ∈ processed_transactions w) then 1%nat else 0%nat.


(** The first log line of each [process_event] call names the event it
    handles: the sequence of dispatch attempts. *)
Definition dispatch_head (l : log_entry) : option string :=
  match l with
  | LogSkipDuplicate x | LogProcessing x => Some x
  | _ => None
  end.

Definition dispatch_heads (ls : list log_entry) : list string :=
  omap dispatch_head ls.

(** Start-up does no destination call and leaves the set empty. *)
Definition startup_inv (w : World) : Prop :=
  dest_calls w = [] /\ processed_transactions w = ∅.

Definition same_progress (n : Z) (q : list (Z * Z)) (w : World) : Prop :=
  last_processed_block w = n /\ src_queries w = q.


(** The log line of [except requests.exceptions.ConnectionError] or
    [except Exception] in [run]. *)
Definition error_log (e : exc) : log_entry :=
  if decide (e = ExcRequestsConnectionError) then LogRpcError else LogUnexpectedError.

(** The same event with another [destinationChainId]. *)
Definition with_destinationChainId (ev : BridgeEvent) (d : Z) : BridgeEvent :=
  mkBridgeEvent (ev_transactionId ev) (ev_sender ev) d (ev_token ev)
    (ev_amount ev) (ev_blockNumber ev) (ev_logIndex ev).

(** ** Monad reasoning *)

Definition preserves (P : World -> Prop) {A} (m : M A) : Prop :=
  forall w, P w -> P (snd (m w)).

Section Preserves.
Variable P : World -> Prop.

Lemma preserves_bind {A B} (m : M A) (f : A -> M B) :
  preserves P m -> (forall a, preserves P (f a)) -> preserves P (m ≫= f).
Proof.
  intros Hm Hf w Hw. unfold mbind, M_bind.
  specialize (Hm w Hw). destruct (m w) as [[e|a] w'] eqn:E; simpl in *; auto.
  apply Hf; exact Hm.
Qed.

Lemma preserves_try {A} (m : M A) (h : exc -> M A) :
  preserves P m -> (forall e, preserves P (h e)) -> preserves P (try_except m h).
Proof.
  intros Hm Hh w Hw. unfold try_except.
  specialize (Hm w Hw). destruct (m w) as [[e|a] w'] eqn:E; simpl in *; auto.
  apply Hh; exact Hm.
Qed.

Lemma preserves_ret {A} (a : A) : preserves P (mret a).
Proof. intros w Hw; exact Hw. Qed.

Lemma preserves_raise {A} (e : exc) : preserves P (raise (A:=A) e).
Proof. intros w Hw; exact Hw. Qed.

Lemma preserves_lift {A} (r : exc + A) : preserves P (lift r).
Proof. intros w Hw; exact Hw. Qed.

Lemma preserves_get : preserves P get_world.
Proof. intros w Hw; exact Hw. Qed.

Lemma preserves_modify f : (forall w, P w -> P (f w)) -> preserves P (modify f).
Proof. intros Hf w Hw; apply Hf, Hw. Qed.

Lemma preserves_log l : (forall w, P w -> P (add_log l w)) -> preserves P (log l).
Proof. intros Hf w Hw; apply Hf, Hw. Qed.

Lemma preserves_dest_call {A} op (r : option A) :
  (forall b w, P w -> P (add_dest_call (op, b) w)) -> preserves P (dest_call op r).
Proof. intros Hf w Hw. unfold dest_call. destruct r; apply Hf, Hw. Qed.

End Preserves.

Create HintDb preserve.
#[export] Hint Resolve preserves_ret preserves_raise preserves_lift preserves_get : preserve.

Ltac preserve_step :=
  match goal with
  | |- preserves _ (_ ≫= _) => apply preserves_bind; [|intro]
  | |- preserves _ (try_except _ _) => apply preserves_try; [|intro]
  | |- preserves _ (if ?b then _ else _) => destruct b
  | |- preserves _ (match ?x with _ => _ end) => destruct x
  | |- preserves _ (modify _) => apply preserves_modify
  | |- preserves _ (log _) => apply preserves_log
  | |- preserves _ _ => solve [eauto with preserve]
  end.

(** ** The handler *)

Lemma relayed_count_app h l c :
  relayed_count h (l ++ [c]) =
  (relayed_count h l + if is_release_hex h c then 1 else 0)%nat.
Proof.
  unfold relayed_count. rewrite filter_app, length_app, filter_cons, filter_nil.
  destruct (is_release_hex h c); simpl;
    rewrite ?decide_True, ?decide_False by done; simpl; lia.
Qed.

Lemma broadcasts_app l c :
  filter (fun c => is_broadcast c = true) (l ++ [c]) =
  filter (fun c => is_broadcast c = true) l ++
  (if is_broadcast c then [c] else []).
Proof.
  rewrite filter_app, filter_cons, filter_nil.
  destruct (is_broadcast c); simpl; rewrite ?decide_True, ?decide_False by done; done.
Qed.

(** Case analysis on the answers of the destination node, in the order in
    which [_simulate_release_tokens] asks for them. *)
Ltac destruct_dest_answers cfg dc ev :=
  let key := constr:(listener_private_key cfg) in
  destruct (dc_from_key dc key) as [a|] eqn:E1;
  [destruct (dc_get_transaction_count dc a) as [n|] eqn:E2;
   [destruct (dc_gas_price dc) as [gp|] eqn:E3;
    [destruct (dc_build_transaction dc (release_call ev) (mkTxPayload a n 200000 gp))
       as [cid|] eqn:E4;
     [destruct (dc_sign_transaction dc
                  (mkBuiltTx (release_call ev) (mkTxPayload a n 200000 gp) cid) key)
        as [hh|] eqn:E5|]|]|]|];
  unfold mbind, M_bind, try_except, dest_call, log, raise, mret, M_ret;
  repeat match goal with H : ?x = _ |- context [?x] => rewrite H end; simpl.

(** What one run of [_simulate_release_tokens] does to the state. *)
Lemma simulate_spec cfg dc ev w :
  let r := _simulate_release_tokens cfg dc ev w in
  processed_transactions (snd r) = processed_transactions w /\
  last_processed_block (snd r) = last_processed_block w /\
  src_queries (snd r) = src_queries w /\
  fst r = (if dest_succeeds cfg dc ev then inr tt else inl ExcOther) /\
  (forall h, relayed_count h (dest_calls (snd r)) =
     (relayed_count h (dest_calls w) +
      if dest_succeeds cfg dc ev && bool_decide (hex (ev_transactionId ev) = h)
      then 1 else 0)%nat) /\
  filter (fun c => is_broadcast c = true) (dest_calls (snd r)) =
  filter (fun c => is_broadcast c = true) (dest_calls w).
Proof.
  unfold _simulate_release_tokens, dest_succeeds.
  destruct_dest_answers cfg dc ev.
  all: repeat split; try reflexivity.
  all: try (intros h; rewrite ?relayed_count_app; simpl; lia).
  all: rewrite ?broadcasts_app; simpl; rewrite ?app_nil_r; reflexivity.
Qed.

(** [process_event] on an id already in the set only logs a warning. *)
Lemma process_event_duplicate cfg dc ev w :
  hex (ev_transactionId ev) ∈ processed_transactions w ->
  process_event cfg dc ev w =
  (inr tt, add_log (LogSkipDuplicate (hex (ev_transactionId ev))) w).
Proof.
  intros Hin. unfold process_event, try_except, mbind, M_bind, get_world.
  rewrite decide_True by exact Hin. reflexivity.
Qed.

(** [process_event] on a fresh id. *)
Lemma process_event_fresh cfg dc ev w :
  hex (ev_transactionId ev) ∉ processed_transactions w ->
  let r := process_event cfg dc ev w in
  fst r = inr tt /\
  processed_transactions (snd r) =
    (if dest_succeeds cfg dc ev
     then {[ hex (ev_transactionId ev) ]} ∪ processed_transactions w
     else processed_transactions w) /\
  last_processed_block (snd r) = last_processed_block w /\
  src_queries (snd r) = src_queries w /\
  (forall h, relayed_count h (dest_calls (snd r)) =
     (relayed_count h (dest_calls w) +
      if dest_succeeds cfg dc ev && bool_decide (hex (ev_transactionId ev) = h)
      then 1 else 0)%nat) /\
  filter (fun c => is_broadcast c = true) (dest_calls (snd r)) =
  filter (fun c => is_broadcast c = true) (dest_calls w) /\
  (dest_succeeds cfg dc ev = false -> LogEventError ev ∈ logs (snd r)).
Proof.
  intros Hn. unfold process_event, try_except, mbind, M_bind, get_world, log.
  rewrite decide_False by exact Hn.
  pose proof (simulate_spec cfg dc ev (add_log (LogProcessing (hex (ev_transactionId ev))) w))
    as (Hp & Hl & Hs & Hr & Hc & Hb).
  destruct (_simulate_release_tokens cfg dc ev _) as [r w1]; simpl in *.
  destruct (dest_succeeds cfg dc ev); subst r; simpl.
  - rewrite Hp. repeat split; try reflexivity; try assumption; try discriminate.
  - rewrite Hp. repeat split; try reflexivity; try assumption.
    intros _. unfold add_log; simpl. set_solver.
Qed.

(** ** The deduplication invariant *)

Lemma dedup_inv_add_log l w : dedup_inv w -> dedup_inv (add_log l w).
Proof. intros H h; exact (H h). Qed.

Lemma dedup_inv_last n w : dedup_inv w -> dedup_inv (set_last_processed_block n w).
Proof. intros H h; exact (H h). Qed.

Lemma dedup_inv_src q w : dedup_inv w -> dedup_inv (add_src_query q w).
Proof. intros H h; exact (H h). Qed.

#[export] Hint Resolve dedup_inv_add_log dedup_inv_last dedup_inv_src : preserve.

Lemma process_event_inv cfg dc ev : preserves dedup_inv (process_event cfg dc ev).
Proof.
  intros w Hw.
  destruct (decide (hex (ev_transactionId ev) ∈ processed_transactions w)) as [Hin|Hn].
  - rewrite process_event_duplicate by exact Hin. simpl. auto with preserve.
  - pose proof (process_event_fresh cfg dc ev w Hn) as (_ & Hp & _ & _ & Hc & _).
    intros h. rewrite Hc, Hp, Hw.
    destruct (dest_succeeds cfg dc ev); simpl.
    + set (x := hex (ev_transactionId ev)) in *.
      destruct (decide (x = h)) as [<-|Hne].
      * rewrite (bool_decide_eq_true_2 (x = x)) by reflexivity.
        rewrite (bool_decide_eq_true_2 (x ∈ {[x]} ∪ processed_transactions w))
          by set_solver.
        rewrite (bool_decide_eq_false_2 (x ∈ processed_transactions w)) by exact Hn.
        reflexivity.
      * rewrite (bool_decide_eq_false_2 (x = h)) by exact Hne.
        assert (Hiff : h ∈ {[x]} ∪ processed_transactions w
                       <-> h ∈ processed_transactions w) by set_solver.
        destruct (bool_decide_reflect (h ∈ processed_transactions w)) as [Hh|Hh];
        [rewrite bool_decide_eq_true_2 by (apply Hiff; exact Hh)
        |rewrite bool_decide_eq_false_2 by (rewrite Hiff; exact Hh)]; lia.
    + lia.
Qed.

#[export] Hint Resolve process_event_inv : preserve.

Lemma process_events_inv cfg dc evs : preserves dedup_inv (process_events cfg dc evs).
Proof.
  induction evs as [|ev evs IH]; simpl; repeat preserve_step; auto.
Qed.

#[export] Hint Resolve process_events_inv : preserve.

Lemma dispatch_found_inv cfg dc evs : preserves dedup_inv (dispatch_found cfg dc evs).
Proof. unfold dispatch_found. repeat preserve_step; auto with preserve. Qed.

#[export] Hint Resolve dispatch_found_inv : preserve.

Lemma run_cycle_inv cfg tk : preserves dedup_inv (run_cycle cfg tk).
Proof. unfold run_cycle. repeat preserve_step; auto with preserve. Qed.

#[export] Hint Resolve run_cycle_inv : preserve.

Lemma run_loop_inv cfg ticks : preserves dedup_inv (run_loop cfg ticks).
Proof. induction ticks; simpl; repeat preserve_step; auto. Qed.

Lemma startup_inv_dedup w : startup_inv w -> dedup_inv w.
Proof.
  intros [Hd Hp] h. rewrite Hd, Hp. unfold relayed_count. simpl.
  rewrite bool_decide_eq_false_2 by set_solver. reflexivity.
Qed.

Lemma listener_init_startup cfg net : preserves startup_inv (listener_init cfg net).
Proof.
  unfold listener_init, chain_connector, get_contract.
  repeat preserve_step; try (intros w [Hd Hp]; split; assumption).
  intros w [Hd Hp]; split; [exact Hd|reflexivity].
Qed.

Lemma main_world_dedup env net ticks : dedup_inv (main_world (main env net ticks)).
Proof.
  unfold main.
  assert (Hs : preserves startup_inv (startup env net)).
  { unfold startup. repeat preserve_step. apply listener_init_startup. }
  assert (H0 : startup_inv initial_world) by (split; reflexivity).
  specialize (Hs initial_world H0).
  destruct (startup env net initial_world) as [[e|cfg] w] eqn:E; simpl in Hs.
  - destruct e; simpl; apply startup_inv_dedup in Hs; auto with preserve.
  - pose proof (run_loop_inv cfg ticks w (startup_inv_dedup w Hs)) as Hl.
    destruct (run_loop cfg ticks w) as [[e|[]] w'] eqn:E'; simpl in Hl.
    + destruct e; simpl; auto with preserve.
    + exact Hl.
Qed.

Lemma filter_length_mono {X} (P Q : X -> Prop) `{forall x, Decision (P x)}
    `{forall x, Decision (Q x)} (l : list X) :
  (forall x, P x -> Q x) -> (length (filter P l) <= length (filter Q l))%nat.
Proof.
  intros HPQ. induction l as [|x l IH]; simpl; [lia|].
  rewrite !filter_cons.
  destruct (decide (P x)) as [Hp|Hp]; destruct (decide (Q x)) as [Hq|Hq];
    simpl; try lia. exfalso; apply Hq, HPQ, Hp.
Qed.

Lemma release_actions_le_relayed tid calls :
  (length (release_actions tid calls) <= relayed_count (hex tid) calls)%nat.
Proof.
  apply filter_length_mono. intros [op ok] Hx.
  destruct op; try discriminate Hx; destruct ok; try discriminate Hx.
  simpl in *. apply bool_decide_eq_true_1 in Hx. rewrite Hx.
  apply bool_decide_eq_true_2. reflexivity.
Qed.

(** ** The loop *)

Lemma process_event_total cfg dc ev w : fst (process_event cfg dc ev w) = inr tt.
Proof.
  destruct (decide (hex (ev_transactionId ev) ∈ processed_transactions w)) as [Hin|Hn].
  - rewrite process_event_duplicate by exact Hin. reflexivity.
  - exact (proj1 (process_event_fresh cfg dc ev w Hn)).
Qed.

Lemma process_event_progress cfg dc ev n q :
  preserves (same_progress n q) (process_event cfg dc ev).
Proof.
  intros w [Hn Hq].
  destruct (decide (hex (ev_transactionId ev) ∈ processed_transactions w)) as [Hin|Hf].
  - rewrite process_event_duplicate by exact Hin. split; assumption.
  - pose proof (process_event_fresh cfg dc ev w Hf) as (_ & _ & Hl & Hs & _).
    split; congruence.
Qed.

Lemma process_events_spec cfg dc evs w :
  fst (process_events cfg dc evs w) = inr tt /\
  last_processed_block (snd (process_events cfg dc evs w)) = last_processed_block w /\
  src_queries (snd (process_events cfg dc evs w)) = src_queries w.
Proof.
  revert w. induction evs as [|ev evs IH]; intros w; [repeat split|].
  simpl. unfold mbind, M_bind.
  pose proof (process_event_total cfg dc ev w) as Ht.
  pose proof (process_event_progress cfg dc ev (last_processed_block w) (src_queries w) w
                 (conj eq_refl eq_refl)) as [Hl Hs].
  destruct (process_event cfg dc ev w) as [r w1]; simpl in *; subst r.
  destruct (IH w1) as (H1 & H2 & H3). repeat split; congruence.
Qed.

Lemma dispatch_found_spec cfg dc evs w :
  fst (dispatch_found cfg dc evs w) = inr tt /\
  last_processed_block (snd (dispatch_found cfg dc evs w)) = last_processed_block w /\
  src_queries (snd (dispatch_found cfg dc evs w)) = src_queries w.
Proof.
  destruct evs as [|ev evs]; [repeat split|].
  unfold dispatch_found, mbind, M_bind, log.
  destruct (process_events_spec cfg dc (ev :: evs)
    (add_log (LogFoundEvents (length (ev :: evs))) w)) as (H1 & H2 & H3).
  repeat split; assumption.
Qed.

(** One iteration in which the head and the event query are answered. *)
Lemma run_cycle_scan cfg tk w latest evs :
  tk_block_number tk = inr latest ->
  latest > last_processed_block w ->
  tk_get_all_entries tk (last_processed_block w + 1) latest = inr evs ->
  run_cycle cfg tk w =
  (tk_sleep tk,
   set_last_processed_block latest
     (snd (dispatch_found cfg (tk_dest tk) evs
       (add_src_query (last_processed_block w + 1, latest)
         (add_log (LogScanning (last_processed_block w + 1) latest) w))))).
Proof.
  intros Hb Hgt He. unfold run_cycle, try_except, mbind, M_bind, get_world, lift, modify, log.
  rewrite Hb, decide_True by exact Hgt. simpl. rewrite He.
  pose proof (proj1 (dispatch_found_spec cfg (tk_dest tk) evs
    (add_src_query (last_processed_block w + 1, latest)
      (add_log (LogScanning (last_processed_block w + 1) latest) w)))) as Ht.
  destruct (dispatch_found _ _ _ _) as [r w1]; simpl in *; subst r. reflexivity.
Qed.

(** What one iteration does to the watermark and to the event queries. *)
Lemma run_cycle_progress cfg tk w :
  let w' := snd (run_cycle cfg tk w) in
  (exists latest,
      tk_block_number tk = inr latest /\ latest > last_processed_block w /\
      src_queries w' = src_queries w ++ [(last_processed_block w + 1, latest)] /\
      (last_processed_block w' = latest \/ last_processed_block w' = last_processed_block w))
  \/ (src_queries w' = src_queries w /\ last_processed_block w' = last_processed_block w).
Proof.
  unfold run_cycle, try_except, mbind, M_bind, get_world, lift, modify, log.
  destruct (tk_block_number tk) as [e|latest] eqn:Hb.
  - right. destruct e; simpl; destruct (tk_sleep tk); split; reflexivity.
  - destruct (decide (latest > last_processed_block w)) as [Hgt|Hle].
    + left. exists latest. split; [reflexivity|]. split; [exact Hgt|].
      simpl. destruct (tk_get_all_entries tk _ _) as [e|evs].
      * destruct e; simpl; destruct (tk_sleep tk); split; auto.
      * pose proof (dispatch_found_spec cfg (tk_dest tk) evs
          (add_src_query (last_processed_block w + 1, latest)
            (add_log (LogScanning (last_processed_block w + 1) latest) w))) as (Ht & Hl & Hs).
        destruct (dispatch_found _ _ _ _) as [r w1]; simpl in *; subst r.
        destruct (tk_sleep tk); simpl; split; auto.
    + right. simpl. destruct (tk_sleep tk); split; reflexivity.
Qed.

Lemma run_cycle_monotone cfg tk w :
  last_processed_block w <= last_processed_block (snd (run_cycle cfg tk w)).
Proof.
  destruct (run_cycle_progress cfg tk w) as [(l & _ & Hgt & _ & [Hl|Hl])|[_ Hl]];
    rewrite Hl; lia.
Qed.

(** ** Dispatch order *)

Lemma dispatch_heads_add_log l w :
  dispatch_heads (logs (add_log l w)) =
  dispatch_heads (logs w) ++ (match dispatch_head l with Some x => [x] | None => [] end).
Proof.
  unfold dispatch_heads, add_log; simpl. rewrite omap_app. simpl.
  destruct (dispatch_head l); reflexivity.
Qed.

Lemma simulate_heads cfg dc ev w :
  dispatch_heads (logs (snd (_simulate_release_tokens cfg dc ev w))) =
  dispatch_heads (logs w).
Proof.
  unfold _simulate_release_tokens.
  destruct_dest_answers cfg dc ev.
  all: unfold dispatch_heads; rewrite ?omap_app; simpl; rewrite ?app_nil_r; reflexivity.
Qed.

Lemma process_event_heads cfg dc ev w :
  dispatch_heads (logs (snd (process_event cfg dc ev w))) =
  dispatch_heads (logs w) ++ [hex (ev_transactionId ev)].
Proof.
  destruct (decide (hex (ev_transactionId ev) ∈ processed_transactions w)) as [Hin|Hn].
  - rewrite process_event_duplicate by exact Hin. simpl.
    apply dispatch_heads_add_log.
  - unfold process_event, try_except, mbind, M_bind, get_world, log, modify.
    rewrite decide_False by exact Hn.
    pose proof (simulate_heads cfg dc ev
      (add_log (LogProcessing (hex (ev_transactionId ev))) w)) as Hh.
    rewrite dispatch_heads_add_log in Hh. simpl in Hh.
    destruct (_simulate_release_tokens cfg dc ev _) as [[e|[]] w1]; simpl in *.
    + destruct (is_exception e); simpl; [|exact Hh].
      unfold dispatch_heads in *. rewrite omap_app, Hh. simpl. apply app_nil_r.
    + unfold dispatch_heads in *. rewrite omap_app, Hh. simpl. apply app_nil_r.
Qed.

Lemma process_events_heads cfg dc evs w :
  dispatch_heads (logs (snd (process_events cfg dc evs w))) =
  dispatch_heads (logs w) ++ map (fun ev => hex (ev_transactionId ev)) evs.
Proof.
  revert w. induction evs as [|ev evs IH]; intros w; simpl.
  - rewrite app_nil_r. reflexivity.
  - unfold mbind, M_bind.
    pose proof (process_event_total cfg dc ev w) as Ht.
    pose proof (process_event_heads cfg dc ev w) as Hh.
    destruct (process_event cfg dc ev w) as [r w1]; simpl in *; subst r.
    rewrite IH, Hh, <- app_assoc. reflexivity.
Qed.

Lemma dispatch_found_heads cfg dc evs w :
  dispatch_heads (logs (snd (dispatch_found cfg dc evs w))) =
  dispatch_heads (logs w) ++ map (fun ev => hex (ev_transactionId ev)) evs.
Proof.
  destruct evs as [|ev evs]; unfold dispatch_found, mbind, M_bind, log.
  - simpl. unfold dispatch_heads. rewrite omap_app. reflexivity.
  - rewrite process_events_heads. unfold dispatch_heads; simpl.
    rewrite omap_app. simpl. rewrite app_nil_r. reflexivity.
Qed.

(** ** Liveness of the loop *)



Lemma run_loop_monotone cfg ticks w :
  last_processed_block w <= last_processed_block (snd (run_loop cfg ticks w)).
Proof.
  revert w. induction ticks as [|tk ticks IH]; intros w; simpl; [lia|].
  unfold mbind, M_bind.
  pose proof (run_cycle_monotone cfg tk w) as Hm.
  destruct (run_cycle cfg tk w) as [[e|[]] w1]; simpl in *; [lia|].
  specialize (IH w1). lia.
Qed.

(** ** Logs, the deduplication set and later queries *)

Lemma process_event_keeps_log cfg dc ev l :
  preserves (fun w => l ∈ logs w) (process_event cfg dc ev).
Proof.
  unfold process_event, _simulate_release_tokens. cbv zeta.
  repeat (preserve_step || apply preserves_dest_call).
  all: intros; unfold add_log, add_dest_call, set_processed in *; simpl; set_solver.
Qed.

Lemma process_events_keeps_log cfg dc evs l :
  preserves (fun w => l ∈ logs w) (process_events cfg dc evs).
Proof.
  induction evs as [|ev evs IH]; simpl; [apply preserves_ret|].
  apply preserves_bind; [apply process_event_keeps_log|intros; exact IH].
Qed.

Lemma process_event_processed_grows cfg dc ev P :
  preserves (fun w => P ⊆ processed_transactions w) (process_event cfg dc ev).
Proof.
  intros w Hw.
  destruct (decide (hex (ev_transactionId ev) ∈ processed_transactions w)) as [Hin|Hf].
  - rewrite process_event_duplicate by exact Hin. exact Hw.
  - destruct (process_event_fresh cfg dc ev w Hf) as (_ & Hp & _).
    rewrite Hp. destruct (dest_succeeds cfg dc ev); set_solver.
Qed.

Lemma process_events_processed_grows cfg dc evs P :
  preserves (fun w => P ⊆ processed_transactions w) (process_events cfg dc evs).
Proof.
  induction evs as [|ev evs IH]; simpl; [apply preserves_ret|].
  apply preserves_bind; [apply process_event_processed_grows|intros; exact IH].
Qed.

Lemma process_events_processed_eq cfg dc evs w :
  processed_transactions (snd (process_events cfg dc evs w)) =
  processed_transactions w ∪
  list_to_set (map (fun ev => hex (ev_transactionId ev))
                 (filter (fun ev => dest_succeeds cfg dc ev = true) evs)).
Proof.
  revert w. induction evs as [|ev evs IH]; intros w; simpl.
  - set_solver.
  - unfold mbind, M_bind.
    destruct (decide (hex (ev_transactionId ev) ∈ processed_transactions w)) as [Hin|Hf].
    + rewrite process_event_duplicate by exact Hin. rewrite IH. simpl.
      rewrite filter_cons.
      destruct (decide (dest_succeeds cfg dc ev = true)); simpl; set_solver.
    + destruct (process_event_fresh cfg dc ev w Hf) as (Ht & Hp & _).
      destruct (process_event cfg dc ev w) as [r w1]; simpl in Ht, Hp; subst r.
      rewrite IH, Hp, filter_cons.
      destruct (dest_succeeds cfg dc ev); case_decide; try congruence; simpl; set_solver.
Qed.

(** A returned event whose dispatch fails and whose id is not recorded
    at the end has its error logged. *)
Lemma process_events_error_logged cfg dc evs w ev :
  ev ∈ evs -> dest_succeeds cfg dc ev = false ->
  hex (ev_transactionId ev) ∉ processed_transactions (snd (process_events cfg dc evs w)) ->
  LogEventError ev ∈ logs (snd (process_events cfg dc evs w)).
Proof.
  revert w. induction evs as [|e evs IH]; intros w Hin Hf Hn.
  - apply elem_of_nil in Hin. contradiction.
  - simpl in Hn |- *. unfold mbind, M_bind in Hn |- *.
    pose proof (process_event_total cfg dc e w) as Ht.
    pose proof (process_event_processed_grows cfg dc e (processed_transactions w) w
                  ltac:(cbv beta; reflexivity)) as Hg.
    destruct (decide (hex (ev_transactionId e) ∈ processed_transactions w)) as [Hd|Hd].
    + destruct (process_event cfg dc e w) as [r w1]; simpl in Ht, Hg; subst r.
      apply elem_of_cons in Hin as [->|Hin]; [|apply IH; assumption].
      exfalso. apply Hn.
      exact (process_events_processed_grows cfg dc evs (processed_transactions w1) w1
               ltac:(cbv beta; reflexivity) _ (Hg _ Hd)).
    + pose proof (process_event_fresh cfg dc e w Hd) as (_ & _ & _ & _ & _ & _ & Hl).
      destruct (process_event cfg dc e w) as [r w1]; simpl in Ht, Hl; subst r.
      apply elem_of_cons in Hin as [->|Hin]; [|apply IH; assumption].
      exact (process_events_keeps_log cfg dc evs _ w1 (Hl Hf)).
Qed.

Lemma dispatch_found_processed_eq cfg dc evs w :
  processed_transactions (snd (dispatch_found cfg dc evs w)) =
  processed_transactions w ∪
  list_to_set (map (fun ev => hex (ev_transactionId ev))
                 (filter (fun ev => dest_succeeds cfg dc ev = true) evs)).
Proof.
  destruct evs as [|ev evs]; [simpl; set_solver|].
  unfold dispatch_found, mbind, M_bind, log. cbv beta iota.
  rewrite process_events_processed_eq. reflexivity.
Qed.

Lemma dispatch_found_error_logged cfg dc evs w ev :
  ev ∈ evs -> dest_succeeds cfg dc ev = false ->
  hex (ev_transactionId ev) ∉ processed_transactions (snd (dispatch_found cfg dc evs w)) ->
  LogEventError ev ∈ logs (snd (dispatch_found cfg dc evs w)).
Proof.
  destruct evs as [|e evs]; intros Hin; [apply elem_of_nil in Hin; contradiction|].
  unfold dispatch_found, mbind, M_bind, log. cbv beta iota.
  apply process_events_error_logged, Hin.
Qed.

(** Every event query issued from a world whose watermark is at least [h]
    starts above [h]. *)
Lemma run_loop_queries_above cfg ticks w h :
  h <= last_processed_block w ->
  exists qs, src_queries (snd (run_loop cfg ticks w)) = src_queries w ++ qs /\
             Forall (fun q => h < q.1) qs.
Proof.
  revert w. induction ticks as [|tk ticks IH]; intros w Hh.
  - exists []. split; [symmetry; apply app_nil_r|constructor].
  - simpl. unfold mbind, M_bind.
    pose proof (run_cycle_monotone cfg tk w) as Hm.
    pose proof (run_cycle_progress cfg tk w) as Hpr. cbv zeta in Hpr.
    destruct (run_cycle cfg tk w) as [r w1]; simpl in Hm, Hpr.
    destruct Hpr as [(l & _ & Hgt & Hq & _)|[Hq _]].
    + destruct r as [e|[]]; simpl.
      * exists [(last_processed_block w + 1, l)]. split; [exact Hq|].
        constructor; [simpl; lia|constructor].
      * destruct (IH w1) as (qs & Hqs & Hf); [lia|].
        exists ((last_processed_block w + 1, l) :: qs).
        rewrite Hqs, Hq, <- app_assoc. split; [reflexivity|].
        constructor; [simpl; lia|exact Hf].
    + destruct r as [e|[]]; simpl.
      * exists []. rewrite Hq, app_nil_r. split; [reflexivity|constructor].
      * destruct (IH w1) as (qs & Hqs & Hf); [lia|].
        exists qs. rewrite Hqs, Hq. split; [reflexivity|exact Hf].
Qed.

(** A cycle with a head above the watermark issues the one query
    (watermark + 1, head), whatever happens next. *)
Lemma run_cycle_one_query cfg tk w latest :
  tk_block_number tk = inr latest ->
  latest > last_processed_block w ->
  src_queries (snd (run_cycle cfg tk w)) =
    src_queries w ++ [(last_processed_block w + 1, latest)].
Proof.
  intros Hb Hgt.
  unfold run_cycle, try_except, mbind, M_bind, get_world, lift, modify, log.
  rewrite Hb, decide_True by exact Hgt. simpl.
  destruct (tk_get_all_entries tk _ _) as [e|evs].
  - destruct e; simpl; destruct (tk_sleep tk); reflexivity.
  - destruct (dispatch_found_spec cfg (tk_dest tk) evs
      (add_src_query (last_processed_block w + 1, latest)
        (add_log (LogScanning (last_processed_block w + 1) latest) w))) as (Ht & _ & Hs).
    destruct (dispatch_found _ _ _ _) as [r w1]; simpl in *; subst r.
    destruct (tk_sleep tk); simpl; exact Hs.
Qed.

(** A failing event query: the scan and the error are logged. *)
Lemma run_cycle_query_raise cfg tk w latest e :
  tk_block_number tk = inr latest ->
  latest > last_processed_block w ->
  tk_get_all_entries tk (last_processed_block w + 1) latest = inl e ->
  is_exception e = true ->
  run_cycle cfg tk w =
  (tk_sleep tk,
   add_log (error_log e)
     (add_src_query (last_processed_block w + 1, latest)
       (add_log (LogScanning (last_processed_block w + 1) latest) w))).
Proof.
  intros Hb Hgt He Hx. unfold error_log.
  unfold run_cycle, try_except, mbind, M_bind, get_world, lift, modify, log.
  rewrite Hb, decide_True by exact Hgt. simpl. rewrite He.
  destruct e; try discriminate Hx; simpl; destruct (tk_sleep tk); reflexivity.
Qed.


(** ** Claims *)

(** C1 (at-most-once dispatch).  Dispatching an event whose hex
    [transactionId] is already in [processed_transactions] only logs a
    warning: no destination-chain call, no change of the set or of the
    watermark.  Over a whole run of the process (start-up, then any number
    of poll cycles, whatever the nodes answer), at most one release
    transaction is built and signed for each [transactionId]. *)
Theorem process_event_at_most_once :
  (forall cfg dc ev w,
     hex (ev_transactionId ev) ∈ processed_transactions w ->
     process_event cfg dc ev w =
     (inr tt, add_log (LogSkipDuplicate (hex (ev_transactionId ev))) w)) /\
  (forall env net ticks tid,
     (length (release_actions tid (dest_calls (main_world (main env net ticks)))) <= 1)%nat).
Proof.
  split.
  - intros cfg dc ev w Hin. apply process_event_duplicate, Hin.
  - intros env net ticks tid.
    pose proof (release_actions_le_relayed tid (dest_calls (main_world (main env net ticks)))).
    pose proof (main_world_dedup env net ticks (hex tid)).
    destruct (bool_decide _); lia.
Qed.

Lemma process_event_at_most_once_witness :
  hex [Byte.xaa] ∈ ({[ hex [Byte.xaa] ]} : gset string) /\
  process_event cfg0 dc_ok (sample_event [Byte.xaa] 103) (set_processed {[ hex [Byte.xaa] ]} (world_at 100)) =
  (inr tt, add_log (LogSkipDuplicate (hex [Byte.xaa]))
             (set_processed {[ hex [Byte.xaa] ]} (world_at 100))).
Proof.
  split.
  - set_solver.
  - apply (proj1 process_event_at_most_once).
    change (hex [Byte.xaa] ∈ ({[ hex [Byte.xaa] ]} : gset string)). set_solver.
Defined.

(** C2 (counterexample).  A scan of (10, 15] whose only event (block 13)
    fails to dispatch, because the node rejects its [build_transaction]:
    the event is not recorded as relayed, yet the watermark moves to 15, so
    no later cycle scans block 13 again. *)
Lemma run_cycle_advances_past_failed_dispatch :
  let ev := sample_event [Byte.x13] 13 in
  let w' := snd (run_cycle cfg0 (tick_with 15 [ev] (dc_reject [Byte.x13])) (world_at 10)) in
  dest_succeeds cfg0 (dc_reject [Byte.x13]) ev = false /\
  (hex [Byte.x13] ∉ processed_transactions w') /\
  last_processed_block w' = 15.
Proof.
  split; [reflexivity|]. split; [|reflexivity].
  apply (bool_decide_eq_false _). vm_compute. reflexivity.
Qed.

(** C2 (amended).  Once the head read and the event query of a cycle
    succeed with a head above the watermark, the cycle sets the watermark
    to the head, whatever the outcomes of the dispatches; the only query it
    issues is (watermark + 1, head).  A returned event whose dispatch fails
    is logged as an event error unless its id ends up recorded, a fresh id
    that no returned event relays successfully stays out of
    [processed_transactions], and every event query of every later cycle
    starts above the head: the failed range is never scanned again. *)
Theorem run_cycle_advances_watermark cfg tk w latest evs :
  tk_block_number tk = inr latest ->
  latest > last_processed_block w ->
  tk_get_all_entries tk (last_processed_block w + 1) latest = inr evs ->
  let w' := snd (run_cycle cfg tk w) in
  last_processed_block w' = latest /\
  src_queries w' = src_queries w ++ [(last_processed_block w + 1, latest)] /\
  (forall ev, ev ∈ evs -> dest_succeeds cfg (tk_dest tk) ev = false ->
     hex (ev_transactionId ev) ∉ processed_transactions w' ->
     LogEventError ev ∈ logs w') /\
  (forall ev, ev ∈ evs -> hex (ev_transactionId ev) ∉ processed_transactions w ->
     (forall ev', ev' ∈ evs -> dest_succeeds cfg (tk_dest tk) ev' = true ->
        hex (ev_transactionId ev') <> hex (ev_transactionId ev)) ->
     hex (ev_transactionId ev) ∉ processed_transactions w') /\
  (forall ticks, exists qs,
     src_queries (snd (run_loop cfg ticks w')) = src_queries w' ++ qs /\
     Forall (fun q => latest < q.1) qs).
Proof.
  intros Hb Hgt He w'. subst w'.
  rewrite (run_cycle_scan cfg tk w latest evs Hb Hgt He). simpl snd.
  set (w0 := add_src_query (last_processed_block w + 1, latest)
               (add_log (LogScanning (last_processed_block w + 1) latest) w)).
  destruct (dispatch_found_spec cfg (tk_dest tk) evs w0) as (_ & _ & Hs).
  split; [reflexivity|]. split.
  { change (src_queries (set_last_processed_block latest ?x)) with (src_queries x).
    rewrite Hs. reflexivity. }
  split; [|split].
  - intros ev Hin Hf Hn. apply (dispatch_found_error_logged cfg (tk_dest tk) evs w0 ev Hin Hf Hn).
  - intros ev _ Hn Hno. change (processed_transactions (set_last_processed_block latest ?x))
      with (processed_transactions x).
    rewrite dispatch_found_processed_eq.
    intros Hin. apply elem_of_union in Hin as [Hin|Hin]; [exact (Hn Hin)|].
    apply elem_of_list_to_set, list_elem_of_In, in_map_iff in Hin as (ev' & Heq & Hin).
    apply list_elem_of_In, list_elem_of_filter in Hin as (Hok & Hin).
    exact (Hno ev' Hin Hok Heq).
  - intros ticks. apply run_loop_queries_above. simpl. lia.
Qed.

Lemma run_cycle_advances_watermark_witness :
  let ev := sample_event [Byte.x13] 13 in
  let tk := tick_with 15 [ev] (dc_reject [Byte.x13]) in
  let w' := snd (run_cycle cfg0 tk (world_at 10)) in
  last_processed_block w' = 15 /\
  src_queries w' = [] ++ [(11, 15)] /\
  (forall ev0, ev0 ∈ [ev] -> dest_succeeds cfg0 (dc_reject [Byte.x13]) ev0 = false ->
     hex (ev_transactionId ev0) ∉ processed_transactions w' ->
     LogEventError ev0 ∈ logs w') /\
  (forall ev0, ev0 ∈ [ev] -> hex (ev_transactionId ev0) ∉ processed_transactions (world_at 10) ->
     (forall ev', ev' ∈ [ev] -> dest_succeeds cfg0 (dc_reject [Byte.x13]) ev' = true ->
        hex (ev_transactionId ev') <> hex (ev_transactionId ev0)) ->
     hex (ev_transactionId ev0) ∉ processed_transactions w') /\
  (forall ticks, exists qs,
     src_queries (snd (run_loop cfg0 ticks w')) = src_queries w' ++ qs /\
     Forall (fun q => 15 < q.1) qs).
Proof.
  exact (run_cycle_advances_watermark cfg0
           (tick_with 15 [sample_event [Byte.x13] 13] (dc_reject [Byte.x13]))
           (world_at 10) 15 [sample_event [Byte.x13] 13]
           eq_refl ltac:(simpl; lia) eq_refl).
Defined.

(** C3.  When some destination step of a fresh event fails (deriving the
    account, reading the nonce or the gas price, building or signing;
    there is no submission step), [process_event] does not raise, logs the
    error, and leaves [processed_transactions] unchanged; a later dispatch
    of the same event against a node that answers every call relays it. *)
Theorem process_event_failure_retryable cfg dc dc' ev w :
  hex (ev_transactionId ev) ∉ processed_transactions w ->
  dest_succeeds cfg dc ev = false ->
  let w' := snd (process_event cfg dc ev w) in
  fst (process_event cfg dc ev w) = inr tt /\
  processed_transactions w' = processed_transactions w /\
  LogEventError ev ∈ logs w' /\
  (dest_succeeds cfg dc' ev = true ->
   hex (ev_transactionId ev) ∈ processed_transactions (snd (process_event cfg dc' ev w'))).
Proof.
  intros Hn Hf w'.
  destruct (process_event_fresh cfg dc ev w Hn) as (Ht & Hp & _ & _ & _ & _ & Hl).
  rewrite Hf in Hp. fold w' in Hp, Hl, Ht.
  split; [exact Ht|]. split; [exact Hp|]. split; [exact (Hl Hf)|].
  intros Hs. assert (Hn' : hex (ev_transactionId ev) ∉ processed_transactions w')
    by (rewrite Hp; exact Hn).
  destruct (process_event_fresh cfg dc' ev w' Hn') as (_ & Hp' & _).
  rewrite Hs in Hp'. rewrite Hp'. set_solver.
Qed.

Lemma process_event_failure_retryable_witness :
  let ev := sample_event [Byte.x13] 13 in
  let w' := snd (process_event cfg0 (dc_reject [Byte.x13]) ev (world_at 10)) in
  fst (process_event cfg0 (dc_reject [Byte.x13]) ev (world_at 10)) = inr tt /\
  processed_transactions w' = processed_transactions (world_at 10) /\
  LogEventError ev ∈ logs w' /\
  (dest_succeeds cfg0 dc_ok ev = true ->
   hex (ev_transactionId ev) ∈ processed_transactions (snd (process_event cfg0 dc_ok ev w'))).
Proof.
  apply (process_event_failure_retryable cfg0 (dc_reject [Byte.x13]) dc_ok
           (sample_event [Byte.x13] 13) (world_at 10)).
  - simpl. set_solver.
  - reflexivity.
Defined.

(** C4.  The watermark never decreases: one poll cycle leaves it unchanged
    or sets it strictly higher, and any sequence of cycles ends at least
    where it started. *)
Theorem watermark_monotone :
  (forall cfg tk w,
     last_processed_block (snd (run_cycle cfg tk w)) = last_processed_block w \/
     last_processed_block w < last_processed_block (snd (run_cycle cfg tk w))) /\
  (forall cfg ticks w,
     last_processed_block w <= last_processed_block (snd (run_loop cfg ticks w))).
Proof.
  split.
  - intros cfg tk w.
    destruct (run_cycle_progress cfg tk w) as [(l & _ & Hgt & _ & [Hl|Hl])|[_ Hl]];
      rewrite Hl; lia.
  - exact run_loop_monotone.
Qed.

(** C5 (counterexample).  No bound on the span of the event queries holds:
    whatever the cap, a cycle whose head is above it by more than the cap
    asks the node for the whole span at once. *)
Lemma scan_span_unbounded :
  ~ (exists cap : Z, forall cfg tk w q,
        q ∈ src_queries (snd (run_cycle cfg tk w)) ->
        q ∈ src_queries w \/ q.2 - q.1 + 1 <= cap).
Proof.
  intros [cap H].
  set (hd := Z.max cap 0 + 1).
  specialize (H cfg0 (tick_with hd [] dc_ok) (world_at 0) (1, hd)).
  rewrite (run_cycle_scan cfg0 (tick_with hd [] dc_ok) (world_at 0) hd [])
    in H by (simpl; try reflexivity; lia).
  simpl in H. destruct H as [Hin|Hle].
  - left.
  - apply elem_of_nil in Hin. exact Hin.
  - lia.
Qed.

(** C5 (amended).  There is no scan cap and no splitting: a cycle whose
    head is above the watermark issues exactly one event query, for the
    whole span (watermark + 1, head).  If that query raises an [Exception]
    (for instance a node refusing a too large range), the cycle logs the
    scan and the error, leaves the watermark where it was, and the next
    cycle with a higher head queries a span with the same start. *)
Theorem run_cycle_single_query cfg tk w latest :
  tk_block_number tk = inr latest ->
  latest > last_processed_block w ->
  src_queries (snd (run_cycle cfg tk w)) =
    src_queries w ++ [(last_processed_block w + 1, latest)] /\
  (forall e, tk_get_all_entries tk (last_processed_block w + 1) latest = inl e ->
   is_exception e = true ->
   let w' := snd (run_cycle cfg tk w) in
   logs w' = logs w ++ [LogScanning (last_processed_block w + 1) latest; error_log e] /\
   last_processed_block w' = last_processed_block w /\
   (forall tk' latest', tk_block_number tk' = inr latest' ->
      latest' > last_processed_block w ->
      src_queries (snd (run_cycle cfg tk' w')) =
        src_queries w' ++ [(last_processed_block w + 1, latest')])).
Proof.
  intros Hb Hgt. split; [exact (run_cycle_one_query cfg tk w latest Hb Hgt)|].
  intros e He Hx w'. subst w'.
  rewrite (run_cycle_query_raise cfg tk w latest e Hb Hgt He Hx). simpl snd.
  split; [simpl; rewrite <- app_assoc; reflexivity|]. split; [reflexivity|].
  intros tk' latest' Hb' Hgt'.
  match goal with |- context [run_cycle cfg tk' ?x] =>
    exact (run_cycle_one_query cfg tk' x latest' Hb' Hgt') end.
Qed.

Lemma run_cycle_single_query_witness :
  let tk := mkTick (inr 1000000) (fun _ _ => inl ExcOther) dc_ok (inr tt) in
  src_queries (snd (run_cycle cfg0 tk (world_at 0))) = [] ++ [(1, 1000000)] /\
  (forall e, tk_get_all_entries tk 1 1000000 = inl e -> is_exception e = true ->
   let w' := snd (run_cycle cfg0 tk (world_at 0)) in
   logs w' = [] ++ [LogScanning 1 1000000; error_log e] /\
   last_processed_block w' = 0 /\
   (forall tk' latest', tk_block_number tk' = inr latest' -> latest' > 0 ->
      src_queries (snd (run_cycle cfg0 tk' w')) = src_queries w' ++ [(1, latest')])).
Proof.
  exact (run_cycle_single_query cfg0
           (mkTick (inr 1000000) (fun _ _ => inl ExcOther) dc_ok (inr tt))
           (world_at 0) 1000000 eq_refl ltac:(simpl; lia)).
Defined.

(** ** No broadcast *)

Lemma process_event_no_broadcast cfg dc ev w :
  filter (fun c => is_broadcast c = true) (dest_calls (snd (process_event cfg dc ev w))) =
  filter (fun c => is_broadcast c = true) (dest_calls w).
Proof.
  destruct (decide (hex (ev_transactionId ev) ∈ processed_transactions w)) as [Hin|Hn].
  - rewrite process_event_duplicate by exact Hin. reflexivity.
  - exact (proj1 (proj2 (proj2 (proj2 (proj2 (proj2 (process_event_fresh cfg dc ev w Hn))))))).
Qed.

Definition no_broadcast (w : World) : Prop :=
  filter (fun c => is_broadcast c = true) (dest_calls w) = [].

Lemma no_broadcast_add_log l w : no_broadcast w -> no_broadcast (add_log l w).
Proof. unfold no_broadcast; simpl; auto. Qed.
Lemma no_broadcast_last n w : no_broadcast w -> no_broadcast (set_last_processed_block n w).
Proof. unfold no_broadcast; simpl; auto. Qed.
Lemma no_broadcast_src q w : no_broadcast w -> no_broadcast (add_src_query q w).
Proof. unfold no_broadcast; simpl; auto. Qed.
Lemma no_broadcast_process_event cfg dc ev :
  preserves no_broadcast (process_event cfg dc ev).
Proof. intros w Hw. unfold no_broadcast. rewrite process_event_no_broadcast. exact Hw. Qed.

#[export] Hint Resolve no_broadcast_add_log no_broadcast_last no_broadcast_src
  no_broadcast_process_event : preserve.

Lemma no_broadcast_process_events cfg dc evs :
  preserves no_broadcast (process_events cfg dc evs).
Proof. induction evs; simpl; repeat preserve_step; auto with preserve. Qed.

#[export] Hint Resolve no_broadcast_process_events : preserve.

Lemma no_broadcast_run_cycle cfg tk : preserves no_broadcast (run_cycle cfg tk).
Proof.
  unfold run_cycle, dispatch_found. repeat preserve_step; auto with preserve.
Qed.

#[export] Hint Resolve no_broadcast_run_cycle : preserve.

Lemma no_broadcast_run_loop cfg ticks : preserves no_broadcast (run_loop cfg ticks).
Proof. induction ticks; simpl; repeat preserve_step; auto with preserve. Qed.

(** C6 (counterexample).  No configuration makes a dispatch broadcast:
    [BridgeConfig] has no simulation/live option, and for every
    configuration, node and event [process_event] adds no
    [send_raw_transaction] or receipt wait to the destination calls. *)
Lemma no_config_broadcasts :
  ~ (exists cfg dc ev w,
        filter (fun c => is_broadcast c = true) (dest_calls (snd (process_event cfg dc ev w))) <>
        filter (fun c => is_broadcast c = true) (dest_calls w)).
Proof.
  intros (cfg & dc & ev & w & Hne). apply Hne, process_event_no_broadcast.
Qed.

(** C6 (amended).  The relayer only builds and signs: over a whole run of
    the process, whatever the configuration and the node answers, no
    destination transaction is ever broadcast. *)
Theorem process_never_broadcasts env net ticks :
  filter (fun c => is_broadcast c = true) (dest_calls (main_world (main env net ticks))) = [].
Proof.
  change (no_broadcast (main_world (main env net ticks))).
  unfold main.
  assert (Hs : preserves startup_inv (startup env net)).
  { unfold startup. repeat preserve_step. apply listener_init_startup. }
  assert (H0 : startup_inv initial_world) by (split; reflexivity).
  specialize (Hs initial_world H0).
  assert (Hw : forall w, startup_inv w -> no_broadcast w)
    by (intros w [Hd _]; unfold no_broadcast; rewrite Hd; reflexivity).
  destruct (startup env net initial_world) as [[e|cfg] w] eqn:E; simpl in Hs.
  - destruct e; simpl; auto with preserve.
  - pose proof (no_broadcast_run_loop cfg ticks w (Hw w Hs)) as Hl.
    destruct (run_loop cfg ticks w) as [[e|[]] w'] eqn:E'; simpl in Hl.
    + destruct e; simpl; auto with preserve.
    + exact Hl.
Qed.

(** C7 (counterexample).  With [LISTENER_PRIVATE_KEY] set to the empty
    string (a missing required variable), the process ends with exit
    status 0. *)
Lemma missing_config_exits_zero :
  existsb (env_missing env_empty_key) required_vars = true /\
  main_exited_with 0 (main env_empty_key net_ok []) = true.
Proof. split; vm_compute; reflexivity. Qed.

(** C7 (amended).  When a required variable is unset or empty, the
    process logs a configuration error and ends with exit status 0, before
    any node is contacted and without entering the loop. *)
Theorem missing_config_stops_before_loop env net ticks :
  existsb (env_missing env) required_vars = true ->
  main env net ticks = MainExited 0 (add_log LogConfigurationError initial_world).
Proof.
  intros H. unfold main, startup, mbind, M_bind, lift, load_config_from_env.
  rewrite H. reflexivity.
Qed.

Lemma missing_config_stops_before_loop_witness :
  main env_empty_key net_ok [tick_with 105 [] dc_ok] =
  MainExited 0 (add_log LogConfigurationError initial_world).
Proof.
  apply missing_config_stops_before_loop. vm_compute. reflexivity.
Defined.

(** C8.  In a cycle whose head read and event query succeed, the events
    are handed to [process_event] one after the other, in the order the
    query returned them, each exactly once, whatever the outcome of the
    earlier ones. *)
Theorem run_cycle_dispatch_order cfg tk w latest evs :
  tk_block_number tk = inr latest ->
  latest > last_processed_block w ->
  tk_get_all_entries tk (last_processed_block w + 1) latest = inr evs ->
  dispatch_heads (logs (snd (run_cycle cfg tk w))) =
  dispatch_heads (logs w) ++ map (fun ev => hex (ev_transactionId ev)) evs.
Proof.
  intros Hb Hgt He. rewrite (run_cycle_scan cfg tk w latest evs Hb Hgt He). simpl.
  change (logs (set_last_processed_block latest ?x)) with (logs x).
  rewrite dispatch_found_heads. f_equal.
  unfold dispatch_heads; simpl. rewrite omap_app. simpl. apply app_nil_r.
Qed.

Lemma run_cycle_dispatch_order_witness :
  let evs := [sample_event [Byte.x11] 11; sample_event [Byte.x13] 13;
              sample_event [Byte.x14] 14] in
  dispatch_heads (logs (snd (run_cycle cfg0 (tick_with 15 evs (dc_reject [Byte.x13]))
                               (world_at 10)))) =
  ["11"; "13"; "14"].
Proof.
  exact (run_cycle_dispatch_order cfg0
           (tick_with 15 [sample_event [Byte.x11] 11; sample_event [Byte.x13] 13;
                          sample_event [Byte.x14] 14] (dc_reject [Byte.x13]))
           (world_at 10) 15
           [sample_event [Byte.x11] 11; sample_event [Byte.x13] 13;
            sample_event [Byte.x14] 14]
           eq_refl ltac:(simpl; lia) eq_refl).
Defined.




(** C10.  [process_event] ignores [destinationChainId]: two events that
    differ only there give the same result, the same destination calls
    (hence the same release transaction), the same deduplication set and
    the same watermark; only the text of an error log line can differ. *)
Theorem process_event_ignores_destinationChainId cfg dc ev d w :
  let r := process_event cfg dc ev w in
  let r' := process_event cfg dc (with_destinationChainId ev d) w in
  fst r' = fst r /\
  dest_calls (snd r') = dest_calls (snd r) /\
  processed_transactions (snd r') = processed_transactions (snd r) /\
  last_processed_block (snd r') = last_processed_block (snd r).
Proof.
  assert (Hs : _simulate_release_tokens cfg dc (with_destinationChainId ev d) =
               _simulate_release_tokens cfg dc ev) by reflexivity.
  unfold process_event, try_except, mbind, M_bind, get_world, log, modify.
  rewrite Hs. cbn [with_destinationChainId ev_transactionId].
  destruct (decide (hex (ev_transactionId ev) ∈ processed_transactions w)).
  - repeat split.
  - destruct (_simulate_release_tokens cfg dc ev _) as [[e|[]] w1];
      [destruct (is_exception e)|]; repeat split.
Qed.

(** ** Further properties of the code *)

(** *** [bytes.hex()] *)

Lemma hex_digit_inj (n m : N) :
  (n < 16)%N -> (m < 16)%N -> hex_digit n = hex_digit m -> n = m.
Proof.
  intros Hn Hm H. apply (f_equal Ascii.N_of_ascii) in H. unfold hex_digit in H.
  destruct (N.ltb_spec n 10), (N.ltb_spec m 10);
    rewrite !Ascii.N_ascii_embedding in H by lia; lia.
Qed.

Lemma byte_of_digits (b c : Byte.byte) :
  (Byte.to_N b / 16 = Byte.to_N c / 16)%N ->
  (Byte.to_N b mod 16 = Byte.to_N c mod 16)%N -> b = c.
Proof.
  intros Hq Hr.
  assert (Byte.to_N b = Byte.to_N c) as E.
  { rewrite (N.div_mod (Byte.to_N b) 16), (N.div_mod (Byte.to_N c) 16) by lia.
    rewrite Hq, Hr. reflexivity. }
  apply (f_equal Byte.of_N) in E. rewrite !Byte.of_to_N in E. congruence.
Qed.

(** Two ids with the same hex string are the same id: keying
    [processed_transactions] by [transactionId.hex()] loses nothing. *)
Theorem hex_injective (a b : list Byte.byte) : hex a = hex b -> a = b.
Proof.
  revert b. induction a as [|x a IH]; intros [|y b] H; simpl in H;
    try reflexivity; try discriminate H.
  injection H as H1 H2 H3.
  apply hex_digit_inj in H1; [|apply N.Div0.div_lt_upper_bound; pose proof (Byte.to_N_bounded x); lia
                              |apply N.Div0.div_lt_upper_bound; pose proof (Byte.to_N_bounded y); lia].
  apply hex_digit_inj in H2; [|apply N.mod_lt; lia|apply N.mod_lt; lia].
  f_equal; [apply byte_of_digits; assumption|apply IH, H3].
Qed.

Lemma hex_injective_witness : [Byte.xab; Byte.x01] = [Byte.xab; Byte.x01].
Proof. apply hex_injective. reflexivity. Defined.

(** *** Start-up of the listener *)

(** When every start-up call succeeds, [__init__] empties the set and sets
    the watermark to [config.start_block or block_number]: the configured
    block, or the source head when it is 0 (a negative block is kept). *)
Theorem listener_init_watermark (cfg : BridgeConfig) (net : Net) (w : World)
    (cid1 cid2 head : Z) (a1 a2 : string) :
  net_is_connected net (source_chain_rpc cfg) = true ->
  net_is_connected net (destination_chain_rpc cfg) = true ->
  net_chain_id net (source_chain_rpc cfg) = inr cid1 ->
  net_chain_id net (destination_chain_rpc cfg) = inr cid2 ->
  net_to_checksum_address net (destination_bridge_address cfg) = inr a1 ->
  net_to_checksum_address net (source_bridge_address cfg) = inr a2 ->
  net_block_number net = inr head ->
  listener_init cfg net w =
  (inr tt, set_last_processed_block (if decide (start_block cfg = 0) then head
                                     else start_block cfg)
             (set_processed ∅ w)).
Proof.
  intros Hc1 Hc2 Hi1 Hi2 Ha1 Ha2 Hb.
  unfold listener_init, chain_connector, get_contract, mbind, M_bind, lift, modify, mret, M_ret.
  rewrite Hc1, Hi1, Hc2, Hi2, Ha1, Ha2.
  destruct (decide (start_block cfg = 0)); [rewrite Hb|]; reflexivity.
Qed.

Lemma listener_init_watermark_witness :
  listener_init cfg0 net_ok (world_at 0) =
  (inr tt, set_last_processed_block 100 (set_processed ∅ (world_at 0))).
Proof.
  exact (listener_init_watermark cfg0 net_ok (world_at 0) 1 1 100 "0xDstBridge" "0xSrcBridge"
           eq_refl eq_refl eq_refl eq_refl eq_refl eq_refl eq_refl).
Defined.

(** *** Edge cases of one poll cycle *)

(** No new block: the cycle does nothing but sleep (no query, no log, no
    dispatch, no state change). *)
Theorem run_cycle_no_new_block (cfg : BridgeConfig) (tk : Tick) (w : World) (latest : Z) :
  tk_block_number tk = inr latest ->
  latest <= last_processed_block w ->
  run_cycle cfg tk w = (tk_sleep tk, w).
Proof.
  intros Hb Hle.
  unfold run_cycle, try_except, mbind, M_bind, get_world, lift, mret, M_ret.
  rewrite Hb, decide_False by lia. simpl. destruct (tk_sleep tk); reflexivity.
Qed.

Lemma run_cycle_no_new_block_witness :
  run_cycle cfg0 (tick_with 105 [] dc_ok) (world_at 105) = (inr tt, world_at 105).
Proof.
  exact (run_cycle_no_new_block cfg0 (tick_with 105 [] dc_ok) (world_at 105) 105
           eq_refl ltac:(simpl; lia)).
Defined.

(** The head cannot be read: an [Exception] is logged (as an RPC error
    for a [requests] connection error) and nothing else changes; a
    [KeyboardInterrupt] leaves the loop with the state untouched. *)
Theorem run_cycle_head_failure (cfg : BridgeConfig) (tk : Tick) (w : World) (e : exc) :
  tk_block_number tk = inl e ->
  run_cycle cfg tk w =
  match e with
  | ExcRequestsConnectionError => (tk_sleep tk, add_log LogRpcError w)
  | ExcKeyboardInterrupt => (inl ExcKeyboardInterrupt, w)
  | _ => (tk_sleep tk, add_log LogUnexpectedError w)
  end.
Proof.
  intros Hb. unfold run_cycle, try_except, mbind, M_bind, lift, log, raise.
  rewrite Hb. destruct e; simpl; try reflexivity; destruct (tk_sleep tk); reflexivity.
Qed.

Lemma run_cycle_head_failure_witness :
  run_cycle cfg0 (mkTick (inl ExcRequestsConnectionError) (fun _ _ => inr []) dc_ok (inr tt))
    (world_at 7) =
  (inr tt, add_log LogRpcError (world_at 7)).
Proof.
  exact (run_cycle_head_failure cfg0
           (mkTick (inl ExcRequestsConnectionError) (fun _ _ => inr []) dc_ok (inr tt))
           (world_at 7) ExcRequestsConnectionError eq_refl).
Defined.

(** The event query raises an [Exception]: after logging the scan and the
    error, the cycle has dispatched nothing and kept the watermark and the
    deduplication set. *)
Theorem run_cycle_query_failure (cfg : BridgeConfig) (tk : Tick) (w : World)
    (latest : Z) (e : exc) :
  tk_block_number tk = inr latest ->
  latest > last_processed_block w ->
  tk_get_all_entries tk (last_processed_block w + 1) latest = inl e ->
  is_exception e = true ->
  run_cycle cfg tk w =
  (tk_sleep tk,
   add_log (if decide (e = ExcRequestsConnectionError) then LogRpcError else LogUnexpectedError)
     (add_src_query (last_processed_block w + 1, latest)
       (add_log (LogScanning (last_processed_block w + 1) latest) w))).
Proof.
  intros Hb Hgt He Hx.
  unfold run_cycle, try_except, mbind, M_bind, get_world, lift, modify, log.
  rewrite Hb, decide_True by exact Hgt. simpl. rewrite He.
  destruct e; try discriminate Hx; simpl; destruct (tk_sleep tk); reflexivity.
Qed.

Lemma run_cycle_query_failure_witness :
  run_cycle cfg0 (mkTick (inr 20) (fun _ _ => inl ExcOther) dc_ok (inr tt)) (world_at 10) =
  (inr tt, add_log LogUnexpectedError (add_src_query (11, 20) (add_log (LogScanning 11 20) (world_at 10)))).
Proof.
  exact (run_cycle_query_failure cfg0 (mkTick (inr 20) (fun _ _ => inl ExcOther) dc_ok (inr tt))
           (world_at 10) 20 ExcOther eq_refl ltac:(simpl; lia) eq_refl eq_refl).
Defined.

(** *** Dispatch *)

(** A dispatch whose every destination call succeeds makes exactly these
    calls, in this order: derive the account, read its nonce and the gas
    price, build [releaseTokens(transactionId, sender, token, amount)] with
    gas 200000 from that account, and sign it; then it records the id. *)
Theorem process_event_success_calls cfg dc ev w a n gp cid h :
  hex (ev_transactionId ev) ∉ processed_transactions w ->
  dc_from_key dc (listener_private_key cfg) = Some a ->
  dc_get_transaction_count dc a = Some n ->
  dc_gas_price dc = Some gp ->
  dc_build_transaction dc (release_call ev) (mkTxPayload a n 200000 gp) = Some cid ->
  dc_sign_transaction dc (mkBuiltTx (release_call ev) (mkTxPayload a n 200000 gp) cid)
    (listener_private_key cfg) = Some h ->
  let call := mkReleaseCall (ev_transactionId ev) (ev_sender ev) (ev_token ev) (ev_amount ev) in
  let payload := mkTxPayload a n 200000 gp in
  dest_calls (snd (process_event cfg dc ev w)) =
    dest_calls w ++
    [(OpFromKey, true); (OpGetTransactionCount a, true); (OpGasPrice, true);
     (OpBuildTransaction call payload, true);
     (OpSignTransaction (mkBuiltTx call payload cid), true)] /\
  processed_transactions (snd (process_event cfg dc ev w)) =
    {[ hex (ev_transactionId ev) ]} ∪ processed_transactions w.
Proof.
  intros Hn E1 E2 E3 E4 E5.
  unfold process_event, _simulate_release_tokens, try_except, mbind, M_bind, get_world,
    log, modify, dest_call, raise, mret, M_ret.
  rewrite decide_False by exact Hn. rewrite E1. simpl. rewrite E2, E3. simpl.
  cbv [release_call] in *. rewrite E4. simpl. rewrite E5. simpl.
  split; [|reflexivity]. rewrite <- !app_assoc. reflexivity.
Qed.

Lemma process_event_success_calls_witness :
  let ev := sample_event [Byte.xaa] 103 in
  let call := mkReleaseCall [Byte.xaa] "0xSender" "0xToken" 50 in
  let payload := mkTxPayload "0xWallet" 7 200000 1 in
  dest_calls (snd (process_event cfg0 dc_ok ev (world_at 100))) =
    [(OpFromKey, true); (OpGetTransactionCount "0xWallet", true); (OpGasPrice, true);
     (OpBuildTransaction call payload, true);
     (OpSignTransaction (mkBuiltTx call payload 5), true)] /\
  processed_transactions (snd (process_event cfg0 dc_ok ev (world_at 100))) =
    {[ hex [Byte.xaa] ]} ∪ ∅.
Proof.
  exact (process_event_success_calls cfg0 dc_ok (sample_event [Byte.xaa] 103) (world_at 100)
           "0xWallet" 7 1 5 [Byte.x01] ltac:(simpl; set_solver)
           eq_refl eq_refl eq_refl eq_refl eq_refl).
Defined.

(** After the dispatch of a scanned list, the set holds the ids it held
    before plus exactly the ids of the events whose destination calls all
    succeed; duplicates in the list and ids already present add nothing. *)
Theorem process_events_processed cfg dc evs w :
  processed_transactions (snd (process_events cfg dc evs w)) =
  processed_transactions w ∪
  list_to_set (map (fun ev => hex (ev_transactionId ev))
                 (filter (fun ev => dest_succeeds cfg dc ev = true) evs)).
Proof.
  revert w. induction evs as [|ev evs IH]; intros w; simpl.
  - set_solver.
  - unfold mbind, M_bind.
    destruct (decide (hex (ev_transactionId ev) ∈ processed_transactions w)) as [Hin|Hf].
    + rewrite process_event_duplicate by exact Hin. rewrite IH. simpl.
      rewrite filter_cons.
      destruct (decide (dest_succeeds cfg dc ev = true)); simpl; set_solver.
    + destruct (process_event_fresh cfg dc ev w Hf) as (Ht & Hp & _).
      destruct (process_event cfg dc ev w) as [r w1]; simpl in Ht, Hp; subst r.
      rewrite IH, Hp, filter_cons.
      destruct (dest_succeeds cfg dc ev); case_decide; try congruence; simpl; set_solver.
Qed.

(** The deduplication set only grows over any run of the loop. *)
Theorem run_loop_processed_grows cfg ticks w :
  processed_transactions w ⊆ processed_transactions (snd (run_loop cfg ticks w)).
Proof.
  assert (Hpe : forall dc ev P, preserves (fun w => P ⊆ processed_transactions w)
                                  (process_event cfg dc ev)).
  { intros dc ev P w' Hw'.
    destruct (decide (hex (ev_transactionId ev) ∈ processed_transactions w')) as [Hin|Hf].
    - rewrite process_event_duplicate by exact Hin. exact Hw'.
    - destruct (process_event_fresh cfg dc ev w' Hf) as (_ & Hp & _).
      rewrite Hp. destruct (dest_succeeds cfg dc ev); set_solver. }
  set (P := processed_transactions w).
  assert (Hevs : forall dc evs, preserves (fun w => P ⊆ processed_transactions w)
                                  (process_events cfg dc evs)).
  { intros dc evs. induction evs as [|ev evs IHe]; simpl.
    - apply preserves_ret.
    - apply preserves_bind; [apply Hpe|intros; exact IHe]. }
  assert (Hloop : preserves (fun w => P ⊆ processed_transactions w) (run_loop cfg ticks)).
  { induction ticks as [|tk ticks IH]; simpl.
    - apply preserves_ret.
    - apply preserves_bind; [|intros; exact IH].
      unfold run_cycle, dispatch_found. repeat preserve_step; auto;
        intros ? H; exact H. }
  apply Hloop. subst P. reflexivity.
Qed.
